(** * 0lib: control codes, raw-disk helpers and the generic digest layer

    A shallow embedding of the C headers
      - [code/winsock.h]   (AFD poll events and I/O control codes),
      - [code/raw_disk.h]  (drive descriptors, sector-size and alignment macros),
      - [code/crypto/md.h] (generic message-digest descriptors and accessors),
    followed by the properties established about them.

    Conventions.  C integers are modelled as [Z]; where a value is stored in
    a narrower type than the one it is computed in, the reduction modulo
    [2^w] is written out.  Pointers that may be [NULL] are [option]s.
    Preprocessor constants keep the names they have in the headers. *)

From Stdlib Require Import ZArith NArith List Lia Bool String Znumtheory.
From Stdlib Require Import Strings.Byte.
#[local] Set Warnings "-stdlib-vector".
From Stdlib Require Vector.
Import ListNotations.

Local Open Scope Z_scope.

(* ===================================================================== *)
(** * Part I: definitions                                                  *)
(* ===================================================================== *)

(* --------------------------------------------------------------------- *)
(** ** code/winsock.h                                                      *)
(* --------------------------------------------------------------------- *)

Module Winsock.

(** *** Poll events (winsock.h, lines 65-89) *)

Definition AFD_POLL_RECEIVE_BIT : Z := 0.
Definition AFD_POLL_RECEIVE : Z := Z.shiftl 1 AFD_POLL_RECEIVE_BIT.
Definition AFD_POLL_RECEIVE_EXPEDITED_BIT : Z := 1.
Definition AFD_POLL_RECEIVE_EXPEDITED : Z := Z.shiftl 1 AFD_POLL_RECEIVE_EXPEDITED_BIT.
Definition AFD_POLL_SEND_BIT : Z := 2.
Definition AFD_POLL_SEND : Z := Z.shiftl 1 AFD_POLL_SEND_BIT.
Definition AFD_POLL_DISCONNECT_BIT : Z := 3.
Definition AFD_POLL_DISCONNECT : Z := Z.shiftl 1 AFD_POLL_DISCONNECT_BIT.
Definition AFD_POLL_ABORT_BIT : Z := 4.
Definition AFD_POLL_ABORT : Z := Z.shiftl 1 AFD_POLL_ABORT_BIT.
Definition AFD_POLL_LOCAL_CLOSE_BIT : Z := 5.
Definition AFD_POLL_LOCAL_CLOSE : Z := Z.shiftl 1 AFD_POLL_LOCAL_CLOSE_BIT.
Definition AFD_POLL_CONNECT_BIT : Z := 6.
Definition AFD_POLL_CONNECT : Z := Z.shiftl 1 AFD_POLL_CONNECT_BIT.
Definition AFD_POLL_ACCEPT_BIT : Z := 7.
Definition AFD_POLL_ACCEPT : Z := Z.shiftl 1 AFD_POLL_ACCEPT_BIT.
Definition AFD_POLL_CONNECT_FAIL_BIT : Z := 8.
Definition AFD_POLL_CONNECT_FAIL : Z := Z.shiftl 1 AFD_POLL_CONNECT_FAIL_BIT.
Definition AFD_POLL_QOS_BIT : Z := 9.
Definition AFD_POLL_QOS : Z := Z.shiftl 1 AFD_POLL_QOS_BIT.
Definition AFD_POLL_GROUP_QOS_BIT : Z := 10.
Definition AFD_POLL_GROUP_QOS : Z := Z.shiftl 1 AFD_POLL_GROUP_QOS_BIT.

Definition AFD_NUM_POLL_EVENTS : Z := 11.
Definition AFD_POLL_ALL : Z := Z.shiftl 1 AFD_NUM_POLL_EVENTS - 1.

(** The event masks the header defines, in the order it defines them. *)
Definition afd_poll_events : list Z :=
  [ AFD_POLL_RECEIVE; AFD_POLL_RECEIVE_EXPEDITED; AFD_POLL_SEND;
    AFD_POLL_DISCONNECT; AFD_POLL_ABORT; AFD_POLL_LOCAL_CLOSE;
    AFD_POLL_CONNECT; AFD_POLL_ACCEPT; AFD_POLL_CONNECT_FAIL;
    AFD_POLL_QOS; AFD_POLL_GROUP_QOS ].

(** *** TDI receive flags (winsock.h, lines 38-52) *)

Definition TDI_RECEIVE_BROADCAST : Z := 0x00000004.
Definition TDI_RECEIVE_MULTICAST : Z := 0x00000008.
Definition TDI_RECEIVE_PARTIAL : Z := 0x00000010.
Definition TDI_RECEIVE_NORMAL : Z := 0x00000020.
Definition TDI_RECEIVE_EXPEDITED : Z := 0x00000040.
Definition TDI_RECEIVE_PEEK : Z := 0x00000080.
Definition TDI_RECEIVE_NO_RESPONSE_EXP : Z := 0x00000100.
Definition TDI_RECEIVE_COPY_LOOKAHEAD : Z := 0x00000200.
Definition TDI_RECEIVE_ENTIRE_MESSAGE : Z := 0x00000400.
Definition TDI_RECEIVE_AT_DISPATCH_LEVEL : Z := 0x00000800.
Definition TDI_RECEIVE_CONTROL_INFO : Z := 0x00001000.
Definition TDI_RECEIVE_FORCE_INDICATION : Z := 0x00002000.
Definition TDI_RECEIVE_NO_PUSH : Z := 0x00004000.

(** The TDI receive flags, in the order the header defines them. *)
Definition tdi_receive_flags : list Z :=
  [ TDI_RECEIVE_BROADCAST; TDI_RECEIVE_MULTICAST; TDI_RECEIVE_PARTIAL;
    TDI_RECEIVE_NORMAL; TDI_RECEIVE_EXPEDITED; TDI_RECEIVE_PEEK;
    TDI_RECEIVE_NO_RESPONSE_EXP; TDI_RECEIVE_COPY_LOOKAHEAD;
    TDI_RECEIVE_ENTIRE_MESSAGE; TDI_RECEIVE_AT_DISPATCH_LEVEL;
    TDI_RECEIVE_CONTROL_INFO; TDI_RECEIVE_FORCE_INDICATION;
    TDI_RECEIVE_NO_PUSH ].

(** *** AFD request flags (winsock.h, lines 61-63) *)

Definition AFD_NO_FAST_IO : Z := 0x00000001.
Definition AFD_OVERLAPPED : Z := 0x00000002.
Definition AFD_IMMEDIATE : Z := 0x00000004.

(** *** Flag words

    A set of flags is passed as the bitwise or of its members, and a flag
    is looked for in a word with [word & FLAG]. *)

Definition flags_word (flags : list Z) : Z := List.fold_right Z.lor 0 flags.

Definition has_flag (word flag : Z) : bool := negb (Z.land word flag =? 0).

Definition flags_in (word : Z) (flags : list Z) : list Z :=
  List.filter (has_flag word) flags.

(** A flag made of one bit. *)
Definition single_bit (e : Z) : Prop := exists b, 0 <= b /\ e = 2 ^ b.

(** *** I/O control codes (winsock.h, lines 108-124)

    [FILE_DEVICE_NETWORK], [METHOD_BUFFERED] and [METHOD_NEITHER] come
    from the Windows DDK headers, which are not part of this repository;
    they are parameters of the embedding. *)

Section ControlCodes.

Variables FILE_DEVICE_NETWORK METHOD_BUFFERED METHOD_NEITHER : Z.

Definition FSCTL_AFD_BASE : Z := FILE_DEVICE_NETWORK.

(** [((FSCTL_AFD_BASE) << 12 | (operation << 2) | method)]: in C the
    shift binds tighter than [|], and [|] associates to the left. *)
Definition _AFD_CONTROL_CODE (operation method : Z) : Z :=
  Z.lor (Z.lor (Z.shiftl FSCTL_AFD_BASE 12) (Z.shiftl operation 2)) method.

Definition AFD_RECEIVE : Z := 5.
Definition AFD_RECEIVE_DATAGRAM : Z := 6.
Definition AFD_POLL : Z := 9.

Definition IOCTL_AFD_RECEIVE : Z :=
  _AFD_CONTROL_CODE AFD_RECEIVE METHOD_NEITHER.

Definition IOCTL_AFD_RECEIVE_DATAGRAM : Z :=
  _AFD_CONTROL_CODE AFD_RECEIVE_DATAGRAM METHOD_NEITHER.

Definition IOCTL_AFD_POLL : Z :=
  _AFD_CONTROL_CODE AFD_POLL METHOD_BUFFERED.

(** Every [IOCTL_AFD_*] the header defines, by name. *)
Definition afd_ioctls : list (string * Z) :=
  [ ("IOCTL_AFD_RECEIVE"%string, IOCTL_AFD_RECEIVE);
    ("IOCTL_AFD_RECEIVE_DATAGRAM"%string, IOCTL_AFD_RECEIVE_DATAGRAM);
    ("IOCTL_AFD_POLL"%string, IOCTL_AFD_POLL) ].

End ControlCodes.

(** The construction scheme as the specification words it:
    [(base_code << 12) | (operation_code << 2) | transfer_method]. *)
Definition control_code_scheme (base_code operation_code transfer_method : Z) : Z :=
  Z.lor (Z.lor (Z.shiftl base_code 12) (Z.shiftl operation_code 2))
        transfer_method.

End Winsock.

(* --------------------------------------------------------------------- *)
(** ** code/raw_disk.h                                                     *)
(* --------------------------------------------------------------------- *)

Module RawDisk.

Definition SECTOR_SIZE : Z := 512.
Definition DSK_BASIC : Z := 0.
Definition DSK_DYN_SIMPLE : Z := 1.
Definition DSK_DYN_SPANNED : Z := 2.

(** The anonymous element type of [drive_info_t.disks]. *)
Record disk_entry : Type := mk_disk_entry {
  number    : Z;   (* uint32_t *)
  size      : Z;   (* uint64_t *)
  prt_start : Z;   (* uint64_t *)
  prt_size  : Z    (* uint64_t *)
}.

(** Number of elements in the declaration [disks[16]]. *)
Definition DISKS_SLOTS : nat := 16.

(** [drive_info_t].  The fixed-size C array is a vector whose length is
    part of its type. *)
Record drive_info_t : Type := mk_drive_info {
  dsk_type : Z;    (* uint32_t *)
  dsk_num  : Z;    (* uint32_t *)
  use_gpt  : Z;    (* int *)
  par_numb : Z;    (* int *)
  par_size : Z;    (* uint64_t *)
  disks    : Vector.t disk_entry DISKS_SLOTS
}.

(** [d->disks[i]]: the element when [i] is inside the array; reading
    outside the array has no defined result in C. *)
Definition disk_at (d : drive_info_t) (i : nat) : option disk_entry :=
  nth_error (Vector.to_list (disks d)) i.

(** A descriptor can hold [n] extents when each of the entries
    [disks[0]], ..., [disks[n-1]] exists. *)
Definition holds_extents (d : drive_info_t) (n : nat) : bool :=
  forallb (fun i => match disk_at d i with Some _ => true | None => false end)
          (seq 0 n).

(** The first [n] entries, in array order. *)
Definition extents (d : drive_info_t) (n : nat) : list disk_entry :=
  firstn n (Vector.to_list (disks d)).

(** [IS_INVALID_SECTOR_SIZE(_s)] is [( (_s) % SECTOR_SIZE )]; C's [%]
    truncates towards zero, which is [Z.rem]. *)
Definition IS_INVALID_SECTOR_SIZE (_s : Z) : Z := Z.rem _s SECTOR_SIZE.

(** Reduction of a value to a [w]-bit machine word. *)
Definition wrap (w x : Z) : Z := x mod 2 ^ w.

(** [_ALIGN(size, align)] is
    [(((size) + ((align) - 1)) & ~((align) - 1))], evaluated in words of
    [w] bits: every intermediate result is reduced modulo [2^w]. *)
Definition _ALIGN (w size align : Z) : Z :=
  Z.land (wrap w (size + wrap w (align - 1)))
         (wrap w (Z.lnot (wrap w (align - 1)))).

Definition FS_UNK : Z := 0.
Definition FS_FAT12 : Z := 1.
Definition FS_FAT16 : Z := 2.
Definition FS_FAT32 : Z := 3.
Definition FS_NTFS : Z := 4.
Definition FS_EXFAT : Z := 5.

(** [m] is the least multiple of [a] that is at least [s]. *)
Definition least_multiple_ge (a s m : Z) : Prop :=
  (a | m) /\ s <= m /\ forall m', (a | m') -> s <= m' -> m <= m'.

(** A sample descriptor: a spanned volume over three disks. *)
Definition sample_entry (n : Z) : disk_entry :=
  mk_disk_entry n 1000 0 (100 * (n + 1)).

Definition sample_drive : drive_info_t :=
  mk_drive_info DSK_DYN_SPANNED 3 0 1 600
    (Vector.map sample_entry
       (Vector.of_list (List.map Z.of_nat (seq 0 DISKS_SLOTS)))).

End RawDisk.

(* --------------------------------------------------------------------- *)
(** ** code/crypto/md.h                                                    *)
(* --------------------------------------------------------------------- *)

Module MD.

(** *** Error codes (md.h, lines 6-9) *)

Definition POLARSSL_ERR_MD_FEATURE_UNAVAILABLE : Z := - 0x5080.
Definition POLARSSL_ERR_MD_BAD_INPUT_DATA : Z := - 0x5100.
Definition POLARSSL_ERR_MD_ALLOC_FAILED : Z := - 0x5180.
Definition POLARSSL_ERR_MD_FILE_IO_ERROR : Z := - 0x5200.

(** The error codes of the module, in the order of their definition. *)
Definition md_error_codes : list Z :=
  [ POLARSSL_ERR_MD_FEATURE_UNAVAILABLE; POLARSSL_ERR_MD_BAD_INPUT_DATA;
    POLARSSL_ERR_MD_ALLOC_FAILED; POLARSSL_ERR_MD_FILE_IO_ERROR ].

(** The value the functions of the module return on success. *)
Definition MD_SUCCESS : Z := 0.

(** *** Digest kinds (md.h, lines 15-21) *)

Inductive md_type_t : Type :=
| POLARSSL_MD_NONE
| POLARSSL_MD_SHA224
| POLARSSL_MD_SHA256
| POLARSSL_MD_SHA384
| POLARSSL_MD_SHA512.

(** The integer value of each enumerator: the first is given as 0 and
    each following one is its predecessor plus one. *)
Definition md_type_value (t : md_type_t) : Z :=
  match t with
  | POLARSSL_MD_NONE => 0
  | POLARSSL_MD_SHA224 => 1
  | POLARSSL_MD_SHA256 => 2
  | POLARSSL_MD_SHA384 => 3
  | POLARSSL_MD_SHA512 => 4
  end.

(** [POLARSSL_MD_MAX_SIZE] (md.h, lines 23-27).  The value depends on
    whether the build defines [POLARSSL_SHA512_C]; the build
    configuration is not part of the headers at hand, so the flag is an
    argument. *)
Definition POLARSSL_MD_MAX_SIZE (POLARSSL_SHA512_C : bool) : Z :=
  if POLARSSL_SHA512_C then 64 else 32.

(** Outcome of a call: the [int] that is returned is 0 together with
    what the call produced, or it is an error code. *)
Inductive md_result (A : Type) : Type :=
| md_ok (a : A)
| md_err (code : Z).

Arguments md_ok {A} a.
Arguments md_err {A} code.

Definition md_bind {A B : Type} (r : md_result A) (k : A -> md_result B)
  : md_result B :=
  match r with
  | md_ok a => k a
  | md_err code => md_err code
  end.

(** *** Descriptors and contexts (md.h, lines 33-95)

    The digest-specific context behind [void *ctx] is a type parameter;
    a function that updates the context it is handed returns the new
    context, and one that fills an output buffer returns the bytes. *)

Section Descriptor.

Variable ctx_t : Type.

Record md_info_t : Type := mk_md_info {
  type : md_type_t;
  name : option string;                       (* const char * *)
  size : Z;                                   (* int *)
  starts_func : ctx_t -> ctx_t;
  update_func : ctx_t -> list byte -> ctx_t;
  finish_func : ctx_t -> list byte;
  digest_func : list byte -> list byte;
  hmac_starts_func : ctx_t -> list byte -> ctx_t;
  hmac_update_func : ctx_t -> list byte -> ctx_t;
  hmac_finish_func : ctx_t -> list byte;
  hmac_reset_func : ctx_t -> ctx_t;
  hmac_func : list byte -> list byte -> list byte;
  ctx_alloc_func : option ctx_t;              (* NULL when out of memory *)
  ctx_free_func : ctx_t -> unit;
  process_func : ctx_t -> list byte -> ctx_t
}.

Record md_context_t : Type := mk_md_context {
  md_info : option md_info_t;                 (* const md_info_t * *)
  md_ctx : option ctx_t                       (* void * *)
}.

Definition MD_CONTEXT_T_INIT : md_context_t :=
  {| md_info := None; md_ctx := None |}.

(** *** Accessors (md.h, lines 160-196) *)

(** The [int] field is returned as a [uint8_t]: the conversion keeps
    the value modulo [2^8]. *)
Definition md_get_size (md_info : option md_info_t) : Z :=
  match md_info with
  | None => 0
  | Some i => size i mod 2 ^ 8
  end.

Definition md_get_type (md_info : option md_info_t) : md_type_t :=
  match md_info with
  | None => POLARSSL_MD_NONE
  | Some i => type i
  end.

Definition md_get_name (md_info : option md_info_t) : option string :=
  match md_info with
  | None => None
  | Some i => name i
  end.

(** *** The generic layer (declared in md.h, lines 140-243) *)

(** Modelled from the spec: the body of [md_init_ctx] (md.c is not
    among the sources).  Binding a session to a descriptor allocates
    the algorithm-specific state through the descriptor's allocate
    function; it fails with "bad input" when the context or the
    descriptor is missing and with "alloc failed" when the allocation
    fails (spec 4.2, and the contract documented in md.h). *)
Definition md_init_ctx (ctx : option md_context_t)
           (info : option md_info_t) : md_result md_context_t :=
  match ctx, info with
  | Some _, Some i =>
      match ctx_alloc_func i with
      | None => md_err POLARSSL_ERR_MD_ALLOC_FAILED
      | Some w => md_ok {| md_info := Some i; md_ctx := Some w |}
      end
  | _, _ => md_err POLARSSL_ERR_MD_BAD_INPUT_DATA
  end.

(** Modelled from the spec: the body of [md_starts] (md.c is not among
    the sources).  It sets the working state up for a new digest with
    the descriptor's start function and fails with "bad input" when no
    descriptor is bound. *)
Definition md_starts (ctx : option md_context_t) : md_result md_context_t :=
  match ctx with
  | Some {| md_info := Some i; md_ctx := Some w |} =>
      md_ok {| md_info := Some i; md_ctx := Some (starts_func i w) |}
  | _ => md_err POLARSSL_ERR_MD_BAD_INPUT_DATA
  end.

(** Modelled from the spec: the body of [md_update] (md.c is not among
    the sources).  It feeds the buffer to the descriptor's update
    function and fails with "bad input" when the session is not
    active. *)
Definition md_update (ctx : option md_context_t) (input : list byte)
  : md_result md_context_t :=
  match ctx with
  | Some {| md_info := Some i; md_ctx := Some w |} =>
      md_ok {| md_info := Some i; md_ctx := Some (update_func i w input) |}
  | _ => md_err POLARSSL_ERR_MD_BAD_INPUT_DATA
  end.

(** Modelled from the spec: the body of [md_finish] (md.c is not among
    the sources).  It finalises with the descriptor's finish function
    and hands back the output; it fails with "bad input" when the
    session is not active. *)
Definition md_finish (ctx : option md_context_t) : md_result (list byte) :=
  match ctx with
  | Some {| md_info := Some i; md_ctx := Some w |} =>
      md_ok (finish_func i w)
  | _ => md_err POLARSSL_ERR_MD_BAD_INPUT_DATA
  end.

(** Modelled from the spec: the body of [md] (md.c is not among the
    sources).  The one-shot form runs the descriptor's one-shot digest
    entry point and fails with "bad input" without a descriptor. *)
Definition md (info : option md_info_t) (input : list byte)
  : md_result (list byte) :=
  match info with
  | Some i => md_ok (digest_func i input)
  | None => md_err POLARSSL_ERR_MD_BAD_INPUT_DATA
  end.

(** Modelled from the spec: a streaming session over descriptor [d], the
    sequence start, update, ..., finish of spec 4.2 and 8, written with
    the functions md.h declares: bind and start, one update per chunk in
    order, finish. *)
Definition md_stream (d : md_info_t) (chunks : list (list byte))
  : md_result (list byte) :=
  md_bind (md_init_ctx (Some MD_CONTEXT_T_INIT) (Some d)) (fun c0 =>
  md_bind (md_starts (Some c0)) (fun c1 =>
  md_bind (fold_left (fun acc chunk =>
                        md_bind acc (fun c => md_update (Some c) chunk))
                     chunks (md_ok c1)) (fun c2 =>
  md_finish (Some c2)))).

End Descriptor.

Arguments mk_md_info {ctx_t}.
Arguments type {ctx_t}.
Arguments name {ctx_t}.
Arguments size {ctx_t}.
Arguments starts_func {ctx_t}.
Arguments update_func {ctx_t}.
Arguments finish_func {ctx_t}.
Arguments digest_func {ctx_t}.
Arguments ctx_alloc_func {ctx_t}.
Arguments process_func {ctx_t}.
Arguments md_info {ctx_t}.
Arguments md_ctx {ctx_t}.
Arguments MD_CONTEXT_T_INIT {ctx_t}.
Arguments md_get_size {ctx_t}.
Arguments md_get_type {ctx_t}.
Arguments md_get_name {ctx_t}.
Arguments md_init_ctx {ctx_t}.
Arguments md_starts {ctx_t}.
Arguments md_update {ctx_t}.
Arguments md_finish {ctx_t}.
Arguments md {ctx_t}.
Arguments md_stream {ctx_t}.

(** *** Digest plug-ins and the registry

    Neither the registry (md_wrap.c) nor the transforms of the SHA-2
    family are among the sources.  What follows fixes the shape the
    specification gives them and leaves the transform itself abstract. *)

(** Modelled from the spec: the algorithm-specific working state of a
    session, which is not under src/.  The algorithm buffers partial
    blocks internally, so the state is a chaining value, the bytes of the
    block that is not yet complete, and the number of bytes fed so far. *)
Record sha_context (hstate : Type) : Type := mk_sha_context {
  total : N;
  state : hstate;
  buffer : list byte
}.

Arguments mk_sha_context {hstate}.
Arguments total {hstate}.
Arguments state {hstate}.
Arguments buffer {hstate}.

(** Modelled from the spec: what an external hash algorithm supplies under
    the plug-in contract (spec 1 and 6; the implementations are not under
    src/): the block length, the initial chaining value, the internal
    block-process primitive, the padding and finalisation "per the
    algorithm", the outcome of its context allocation, and its HMAC entry
    points. *)
Record md_plugin (hstate : Type) : Type := mk_md_plugin {
  block_len : nat;
  h_init : hstate;
  h_process : hstate -> list byte -> hstate;
  h_final : hstate -> list byte -> N -> list byte;
  p_alloc : option (sha_context hstate);
  p_free : sha_context hstate -> unit;
  p_hmac_starts : sha_context hstate -> list byte -> sha_context hstate;
  p_hmac_update : sha_context hstate -> list byte -> sha_context hstate;
  p_hmac_finish : sha_context hstate -> list byte;
  p_hmac_reset : sha_context hstate -> sha_context hstate;
  p_hmac : list byte -> list byte -> list byte
}.

Arguments block_len {hstate}.
Arguments h_init {hstate}.
Arguments h_process {hstate}.
Arguments h_final {hstate}.
Arguments p_alloc {hstate}.
Arguments p_free {hstate}.
Arguments p_hmac_starts {hstate}.
Arguments p_hmac_update {hstate}.
Arguments p_hmac_finish {hstate}.
Arguments p_hmac_reset {hstate}.
Arguments p_hmac {hstate}.

Section Plugin.

Variable hstate : Type.
Variable p : md_plugin hstate.

(** Modelled from the spec: the loop over whole blocks of an update (not
    under src/): [n] times, process the next [block_len] bytes. *)
Fixpoint process_blocks (n : nat) (st : hstate) (data : list byte)
  : hstate * list byte :=
  match n with
  | O => (st, data)
  | S n' =>
      process_blocks n' (h_process p st (firstn (block_len p) data))
                     (skipn (block_len p) data)
  end.

(** Modelled from the spec: processing every whole block of [data] (not
    under src/); what is left is shorter than a block. *)
Definition absorb (st : hstate) (data : list byte) : hstate * list byte :=
  process_blocks (List.length data / block_len p) st data.

(** Modelled from the spec: the start entry point of a plug-in (not under
    src/): a new digest begins from the initial chaining value with an
    empty block buffer, whatever the context held before. *)
Definition plugin_starts (c : sha_context hstate) : sha_context hstate :=
  {| total := 0; state := h_init p; buffer := [] |}.

(** Modelled from the spec: the update entry point of a plug-in (not under
    src/), "the algorithm's internal block buffering handles partial
    blocks".  A pending partial block is completed from the input first
    and processed, then the whole blocks of the input are processed from
    the input itself, and the bytes that remain are kept for later. *)
Definition plugin_update (c : sha_context hstate) (input : list byte)
  : sha_context hstate :=
  match input with
  | [] => c
  | _ :: _ =>
      let left := List.length (buffer c) in
      let fill := (block_len p - left)%nat in
      let total' := (total c + N.of_nat (List.length input))%N in
      if ((0 <? left)%nat && (fill <=? List.length input)%nat)%bool then
        let st1 := h_process p (state c) (buffer c ++ firstn fill input) in
        let '(st2, rest) := absorb st1 (skipn fill input) in
        {| total := total'; state := st2; buffer := rest |}
      else
        let '(st2, rest) := absorb (state c) input in
        {| total := total'; state := st2; buffer := buffer c ++ rest |}
  end.

(** Modelled from the spec: the finish entry point of a plug-in (not under
    src/): it "pads/finalizes per the algorithm" from the chaining value,
    the pending bytes and the length of the message. *)
Definition plugin_finish (c : sha_context hstate) : list byte :=
  h_final p (state c) (buffer c) (total c).

(** Modelled from the spec: the internal block-process entry point of a
    plug-in (not under src/). *)
Definition plugin_process (c : sha_context hstate) (data : list byte)
  : sha_context hstate :=
  {| total := total c; state := h_process p (state c) data;
     buffer := buffer c |}.

(** Modelled from the spec: the one-shot entry point of a plug-in (not
    under src/): start, update and finish on a context of its own. *)
Definition plugin_digest (input : list byte) : list byte :=
  let c := {| total := 0; state := h_init p; buffer := [] |} in
  plugin_finish (plugin_update (plugin_starts c) input).

End Plugin.

Arguments process_blocks {hstate}.
Arguments absorb {hstate}.
Arguments plugin_starts {hstate}.
Arguments plugin_update {hstate}.
Arguments plugin_finish {hstate}.
Arguments plugin_process {hstate}.
Arguments plugin_digest {hstate}.

(** Modelled from the spec: the output length of each kind in bits (the
    registry's table is not under src/).  The spec names the supported
    algorithms SHA-224, SHA-256, SHA-384 and SHA-512; the number in the
    name is the length of the digest in bits. *)
Definition digest_bits (k : md_type_t) : Z :=
  match k with
  | POLARSSL_MD_NONE => 0
  | POLARSSL_MD_SHA224 => 224
  | POLARSSL_MD_SHA256 => 256
  | POLARSSL_MD_SHA384 => 384
  | POLARSSL_MD_SHA512 => 512
  end.

(** Modelled from the spec: the output size in bytes that the registry
    declares for a kind (not under src/). *)
Definition digest_size (k : md_type_t) : Z := digest_bits k / 8.

(** Modelled from the spec: the human-readable name of a kind (not under
    src/). *)
Definition digest_name (k : md_type_t) : string :=
  match k with
  | POLARSSL_MD_NONE => "none"
  | POLARSSL_MD_SHA224 => "SHA-224"
  | POLARSSL_MD_SHA256 => "SHA-256"
  | POLARSSL_MD_SHA384 => "SHA-384"
  | POLARSSL_MD_SHA512 => "SHA-512"
  end.

Section Registry.

Variable hstate : Type.
Variable plugins : md_type_t -> md_plugin hstate.

(** Modelled from the spec: the descriptor the registry holds for kind [k]
    (not under src/): identity, output size and the entry points of the
    plug-in. *)
Definition sha_info (k : md_type_t) : md_info_t (sha_context hstate) :=
  {| type := k;
     name := Some (digest_name k);
     size := digest_size k;
     starts_func := plugin_starts (plugins k);
     update_func := plugin_update (plugins k);
     finish_func := plugin_finish (plugins k);
     digest_func := plugin_digest (plugins k);
     hmac_starts_func := p_hmac_starts (plugins k);
     hmac_update_func := p_hmac_update (plugins k);
     hmac_finish_func := p_hmac_finish (plugins k);
     hmac_reset_func := p_hmac_reset (plugins k);
     hmac_func := p_hmac (plugins k);
     ctx_alloc_func := p_alloc (plugins k);
     ctx_free_func := p_free (plugins k);
     process_func := plugin_process (plugins k) |}.

(** Modelled from the spec: [md_info_from_type] (declared in md.h, body
    not under src/): the descriptor of a supported kind, or "not found". *)
Definition md_info_from_type (md_type : md_type_t)
  : option (md_info_t (sha_context hstate)) :=
  match md_type with
  | POLARSSL_MD_NONE => None
  | k => Some (sha_info k)
  end.

End Registry.

Arguments sha_info {hstate}.
Arguments md_info_from_type {hstate}.

(** *** A small plug-in to run the generic layer on

    A 32-bit polynomial checksum over blocks of four bytes.  It is not one
    of the algorithms of the library; it only serves to evaluate the
    definitions above on concrete buffers. *)

Definition byte_of_Z (z : Z) : byte :=
  match Byte.of_N (Z.to_N (z mod 256)) with
  | Some b => b
  | None => x00
  end.

Definition bytes_value (data : list byte) : Z :=
  fold_left (fun acc b => acc * 256 + Z.of_N (Byte.to_N b)) data 0.

Definition toy_process (st : Z) (block : list byte) : Z :=
  (st * 33 + bytes_value block) mod 2 ^ 32.

Definition toy_final (st : Z) (pending : list byte) (len : N) : list byte :=
  let v := toy_process (toy_process st pending) [byte_of_Z (Z.of_N len)] in
  [ byte_of_Z (v / 2 ^ 24); byte_of_Z (v / 2 ^ 16);
    byte_of_Z (v / 2 ^ 8); byte_of_Z v ].

Definition toy_plugin (k : md_type_t) : md_plugin Z :=
  {| block_len := 4;
     h_init := 5381 + md_type_value k;
     h_process := toy_process;
     h_final := toy_final;
     p_alloc := Some {| total := 99; state := -1; buffer := [x2a] |};
     p_free := fun _ => tt;
     p_hmac_starts := fun c _ => c;
     p_hmac_update := fun c _ => c;
     p_hmac_finish := fun _ => [];
     p_hmac_reset := fun c => c;
     p_hmac := fun _ _ => [] |}.

Definition toy_buffer : list byte :=
  [x61; x62; x63; x64; x65; x66; x67; x68; x69; x6a; x6b].

End MD.

(* ===================================================================== *)
(** * Part II: properties                                                  *)
(* ===================================================================== *)

(* --------------------------------------------------------------------- *)
(** ** winsock.h                                                           *)
(* --------------------------------------------------------------------- *)

Section WinsockFacts.
Import Winsock.

Lemma shiftl_1_single_bit (b : Z) :
  0 <= b -> forall i, 0 <= i -> Z.testbit (Z.shiftl 1 b) i = Z.eqb i b.
Proof.
  intros Hb i Hi. rewrite Z.shiftl_1_l.
  rewrite Z.pow2_bits_eqb by assumption.
  apply Z.eqb_sym.
Qed.

(** C1.  [_AFD_CONTROL_CODE] computes
    [(base << 12) | (operation << 2) | method] with
    [base = FILE_DEVICE_NETWORK], and the header defines exactly three
    control codes: receive (operation 5, method "neither"),
    receive-datagram (operation 6, method "neither") and poll
    (operation 9, method "buffered"). *)
Theorem afd_control_codes (FILE_DEVICE_NETWORK METHOD_BUFFERED METHOD_NEITHER : Z) :
  (forall operation method,
      _AFD_CONTROL_CODE FILE_DEVICE_NETWORK operation method
      = control_code_scheme FILE_DEVICE_NETWORK operation method) /\
  afd_ioctls FILE_DEVICE_NETWORK METHOD_BUFFERED METHOD_NEITHER
  = [ ("IOCTL_AFD_RECEIVE"%string,
       control_code_scheme FILE_DEVICE_NETWORK 5 METHOD_NEITHER);
      ("IOCTL_AFD_RECEIVE_DATAGRAM"%string,
       control_code_scheme FILE_DEVICE_NETWORK 6 METHOD_NEITHER);
      ("IOCTL_AFD_POLL"%string,
       control_code_scheme FILE_DEVICE_NETWORK 9 METHOD_BUFFERED) ] /\
  List.length (afd_ioctls FILE_DEVICE_NETWORK METHOD_BUFFERED METHOD_NEITHER) = 3%nat.
Proof.
  split; [| split].
  - intros operation method. reflexivity.
  - reflexivity.
  - reflexivity.
Qed.

(** With the values the Windows DDK gives the three parameters
    ([FILE_DEVICE_NETWORK = 0x12], [METHOD_BUFFERED = 0],
    [METHOD_NEITHER = 3]) the codes are the familiar AFD ones. *)
Remark afd_ioctls_ddk :
  List.map snd (afd_ioctls 0x12 0 3) = [0x12017; 0x1201B; 0x12024].
Proof. reflexivity. Qed.

(** C4.  The eleven poll event masks are [1 << b] for [b = 0, ..., 10] in
    the order receive, receive-expedited, send, disconnect, abort,
    local-close, connect, accept, connect-fail, QoS, group-QoS; each has
    exactly one bit set, they are pairwise distinct, and [AFD_POLL_ALL]
    is their union, [2^11 - 1]. *)
Theorem afd_poll_events_bits :
  afd_poll_events
  = List.map (fun b => Z.shiftl 1 (Z.of_nat b)) (seq 0 11) /\
  List.Forall (fun v => exists b, 0 <= b <= 10 /\
                 forall i, 0 <= i -> Z.testbit v i = Z.eqb i b)
              afd_poll_events /\
  NoDup afd_poll_events /\
  AFD_POLL_ALL = List.fold_right Z.lor 0 afd_poll_events /\
  AFD_POLL_ALL = 2 ^ 11 - 1.
Proof.
  split; [reflexivity |].
  split.
  - change afd_poll_events
      with (List.map (fun b => Z.shiftl 1 (Z.of_nat b)) (seq 0 11)).
    apply Forall_forall. intros v Hv.
    apply in_map_iff in Hv. destruct Hv as [b [<- Hb]].
    apply in_seq in Hb.
    exists (Z.of_nat b). split; [lia |].
    apply shiftl_1_single_bit. lia.
  - split.
    + repeat constructor; cbn; intuition discriminate.
    + split; reflexivity.
Qed.

End WinsockFacts.

(* --------------------------------------------------------------------- *)
(** ** raw_disk.h                                                          *)
(* --------------------------------------------------------------------- *)

Section RawDiskFacts.
Import RawDisk.

(** C3.  [IS_INVALID_SECTOR_SIZE(s)] is nonzero exactly when [s] is not a
    multiple of the sector size 512; equivalently it is zero (the length
    is accepted) exactly when [s] is a multiple of 512. *)
Theorem invalid_sector_size_iff (s : Z) :
  SECTOR_SIZE = 512 /\
  (IS_INVALID_SECTOR_SIZE s <> 0 <-> ~ (exists k, s = k * 512)) /\
  (IS_INVALID_SECTOR_SIZE s = 0 <-> exists k, s = k * 512).
Proof.
  assert (Hz : IS_INVALID_SECTOR_SIZE s = 0 <-> exists k, s = k * 512).
  { unfold IS_INVALID_SECTOR_SIZE, SECTOR_SIZE.
    rewrite Z.rem_divide by discriminate. reflexivity. }
  split; [reflexivity |].
  split; [| exact Hz].
  rewrite Hz. reflexivity.
Qed.

(** The remainder takes the sign of the length: a negative length that is
    not a multiple of 512 is classified as invalid too. *)
Example invalid_sector_size_runs :
  IS_INVALID_SECTOR_SIZE 1024 = 0 /\ IS_INVALID_SECTOR_SIZE 1000 = 488 /\
  IS_INVALID_SECTOR_SIZE 0 = 0 /\ IS_INVALID_SECTOR_SIZE (- 513) = - 1.
Proof. repeat split. Qed.

Lemma disks_length (d : drive_info_t) :
  List.length (Vector.to_list (disks d)) = DISKS_SLOTS.
Proof. apply Vector.length_to_list. Qed.

Lemma disk_at_in_range (d : drive_info_t) (i : nat) :
  (exists e, disk_at d i = Some e) <-> (i < DISKS_SLOTS)%nat.
Proof.
  unfold disk_at.
  pose proof (nth_error_Some (Vector.to_list (disks d)) i) as H.
  rewrite disks_length in H.
  destruct (nth_error (Vector.to_list (disks d)) i) as [e |].
  - split; [intros _; apply H; discriminate | eauto].
  - split; [intros [e He]; discriminate |].
    intros Hi. apply H in Hi. congruence.
Qed.

Lemma holds_extents_iff (d : drive_info_t) (n : nat) :
  holds_extents d n = true <-> (n <= DISKS_SLOTS)%nat.
Proof.
  unfold holds_extents. rewrite forallb_forall. split.
  - intros H. destruct n as [| n]; [lia |].
    specialize (H n).
    assert (Hin : In n (seq 0 (S n))) by (apply in_seq; lia).
    specialize (H Hin).
    destruct (disk_at d n) as [e |] eqn:E; [| discriminate].
    assert (n < DISKS_SLOTS)%nat by (apply (disk_at_in_range d); eauto).
    lia.
  - intros Hn i Hi. apply in_seq in Hi.
    assert (Hlt : (i < DISKS_SLOTS)%nat) by lia.
    apply (disk_at_in_range d) in Hlt. destruct Hlt as [e ->]. reflexivity.
Qed.

(** C8.  The extent array of a drive descriptor has exactly 16 slots:
    entry [i] exists exactly for [i < 16], a descriptor can hold [n]
    extents exactly when [n] is between 0 and 16, and an ordered sequence
    of extents read from it never has more than 16 entries. *)
Theorem drive_info_extent_slots (d : drive_info_t) :
  List.length (Vector.to_list (disks d)) = 16%nat /\
  (forall i, (exists e, disk_at d i = Some e) <-> (i < 16)%nat) /\
  (forall n, holds_extents d n = true <-> (0 <= n <= 16)%nat) /\
  (forall n, List.length (extents d n) = Nat.min n 16 /\
             (List.length (extents d n) <= 16)%nat).
Proof.
  split; [apply disks_length |].
  split; [intros i; apply disk_at_in_range |].
  split.
  - intros n. rewrite holds_extents_iff. unfold DISKS_SLOTS. lia.
  - intros n. unfold extents. rewrite length_firstn, disks_length.
    unfold DISKS_SLOTS. lia.
Qed.

(** On the sample descriptor: the sixteenth entry is the last one. *)
Example sample_drive_slots :
  holds_extents sample_drive 16 = true /\
  holds_extents sample_drive 17 = false /\
  disk_at sample_drive 16 = None /\
  List.map number (extents sample_drive 3) = [0; 1; 2].
Proof. repeat split. Qed.

(** *** Alignment *)

Lemma wrap_small (w x : Z) : 0 <= x < 2 ^ w -> wrap w x = x.
Proof. intros H. unfold wrap. apply Z.mod_small. exact H. Qed.

Lemma wrap_land_ones (w x : Z) : 0 <= w -> wrap w x = Z.land x (Z.ones w).
Proof. intros H. unfold wrap. symmetry. apply Z.land_ones. exact H. Qed.

Lemma wrap_wrap (w x : Z) : 0 <= w -> wrap w (wrap w x) = wrap w x.
Proof.
  intros H. unfold wrap. apply Z.mod_mod. apply Z.pow_nonzero; lia.
Qed.

(** Clearing the low [k] bits of a word rounds it down to a multiple of
    [2^k]. *)
Lemma land_wrap_lnot_ones (w k x : Z) :
  0 <= k -> 0 <= w ->
  Z.land (wrap w x) (wrap w (Z.lnot (Z.ones k))) = wrap w x / 2 ^ k * 2 ^ k.
Proof.
  intros Hk Hw.
  rewrite (wrap_land_ones w (Z.lnot (Z.ones k))) by assumption.
  rewrite (Z.land_comm (Z.lnot (Z.ones k))), Z.land_assoc.
  rewrite <- (wrap_land_ones w (wrap w x)) by assumption.
  rewrite wrap_wrap by assumption.
  rewrite <- Z.ldiff_land.
  rewrite Z.ldiff_ones_r by assumption.
  rewrite Z.shiftr_div_pow2, Z.shiftl_mul_pow2 by assumption.
  reflexivity.
Qed.

(** Rounding down commutes with the reduction to a word. *)
Lemma round_down_wrap (w k y : Z) :
  0 <= k <= w ->
  wrap w y / 2 ^ k * 2 ^ k = wrap w (y / 2 ^ k * 2 ^ k).
Proof.
  intros Hk. unfold wrap.
  assert (Hpk : 0 < 2 ^ k) by (apply Z.pow_pos_nonneg; lia).
  assert (Hpd : 0 < 2 ^ (w - k)) by (apply Z.pow_pos_nonneg; lia).
  replace (2 ^ w) with (2 ^ k * 2 ^ (w - k))
    by (rewrite <- Z.pow_add_r by lia; f_equal; lia).
  rewrite Z.rem_mul_r by lia.
  rewrite (Z.mul_comm (y / 2 ^ k) (2 ^ k)).
  rewrite Z.mul_mod_distr_l by lia.
  rewrite (Z.mul_comm (2 ^ k) ((y / 2 ^ k) mod 2 ^ (w - k))).
  rewrite Z.div_add by lia.
  rewrite (Z.div_small (y mod 2 ^ k)) by (apply Z.mod_pos_bound; lia).
  rewrite Z.add_0_l. ring.
Qed.

Lemma round_up_least (a s : Z) :
  0 < a -> least_multiple_ge a s ((s + (a - 1)) / a * a).
Proof.
  intros Ha. unfold least_multiple_ge.
  pose proof (Z.div_mod (s + (a - 1)) a ltac:(lia)) as Hdm.
  pose proof (Z.mod_pos_bound (s + (a - 1)) a Ha) as Hmb.
  split; [exists ((s + (a - 1)) / a); reflexivity |].
  split; [nia |].
  intros m' [q ->] Hs.
  assert (Hq : (s + (a - 1)) / a < q + 1).
  { apply Z.div_lt_upper_bound; [exact Ha | nia]. }
  nia.
Qed.

(** C9.  For a word size [w], every size [s] and every alignment
    [a = 2^k] representable in a word, [_ALIGN(s, a)] is the least
    multiple of [a] that is at least [s], reduced modulo [2^w]; when that
    multiple fits in a word it is the result itself. *)
Theorem align_least_multiple (w k s a : Z) :
  0 <= k < w -> a = 2 ^ k ->
  exists m, least_multiple_ge a s m /\
            _ALIGN w s a = m mod 2 ^ w /\
            (0 <= m < 2 ^ w -> _ALIGN w s a = m).
Proof.
  intros Hk ->.
  assert (Hpk : 0 < 2 ^ k) by (apply Z.pow_pos_nonneg; lia).
  assert (Hlt : 2 ^ k < 2 ^ w) by (apply Z.pow_lt_mono_r; lia).
  exists ((s + (2 ^ k - 1)) / 2 ^ k * 2 ^ k).
  split; [apply round_up_least; exact Hpk |].
  assert (E : _ALIGN w s (2 ^ k)
              = ((s + (2 ^ k - 1)) / 2 ^ k * 2 ^ k) mod 2 ^ w).
  { unfold _ALIGN.
    rewrite (wrap_small w (2 ^ k - 1)) by lia.
    replace (2 ^ k - 1) with (Z.ones k) by (rewrite Z.ones_equiv; lia).
    rewrite land_wrap_lnot_ones by lia.
    rewrite round_down_wrap by lia.
    reflexivity. }
  split; [exact E |].
  intros Hm. rewrite E. apply Z.mod_small. exact Hm.
Qed.

(** An instance: in 32-bit words, rounding 1000 up to a sector boundary. *)
Lemma align_least_multiple_witness :
  0 <= 9 < 32 /\ 512 = 2 ^ 9 /\
  exists m, least_multiple_ge 512 1000 m /\
            _ALIGN 32 1000 512 = m mod 2 ^ 32 /\
            (0 <= m < 2 ^ 32 -> _ALIGN 32 1000 512 = m).
Proof.
  split; [lia |].
  split; [reflexivity |].
  apply (align_least_multiple 32 9 1000 512).
  - lia.
  - reflexivity.
Defined.

(** The sum wraps around: in 32-bit words, aligning [2^32 - 1] to 2 gives
    0, which is [2^32] modulo the word size. *)
Example align_wraps : _ALIGN 32 (2 ^ 32 - 1) 2 = 0 /\ _ALIGN 32 1000 512 = 1024.
Proof. split; reflexivity. Qed.

End RawDiskFacts.

(* --------------------------------------------------------------------- *)
(** ** md.h: constants and accessors                                       *)
(* --------------------------------------------------------------------- *)

Section MdAccessorFacts.
Import MD.

(** C7.  The four error codes of the digest module are negative, pairwise
    distinct, and different from the success value 0. *)
Theorem md_error_codes_distinct :
  md_error_codes = [ - 0x5080; - 0x5100; - 0x5180; - 0x5200 ] /\
  MD_SUCCESS = 0 /\
  List.Forall (fun e => e < 0) md_error_codes /\
  List.Forall (fun e => e <> MD_SUCCESS) md_error_codes /\
  NoDup md_error_codes.
Proof.
  split; [reflexivity |].
  split; [reflexivity |].
  split; [| split].
  - repeat constructor.
  - repeat constructor; discriminate.
  - repeat constructor; cbn; intuition discriminate.
Qed.

(** C6.  [md_get_size] returns the descriptor's [size] field whenever that
    field holds a value between 0 and 255, and returns 0 for [NULL]. *)
Theorem md_get_size_spec (ctx_t : Type) (d : md_info_t ctx_t) :
  0 <= size d <= 255 ->
  md_get_size (Some d) = size d /\ md_get_size (@None (md_info_t ctx_t)) = 0.
Proof.
  intros Hsize. split; [| reflexivity].
  unfold md_get_size. apply Z.mod_small.
  change (2 ^ 8) with 256. lia.
Qed.

Lemma md_get_size_spec_witness :
  0 <= size (sha_info toy_plugin POLARSSL_MD_SHA512) <= 255 /\
  md_get_size (Some (sha_info toy_plugin POLARSSL_MD_SHA512)) = 64 /\
  md_get_size (@None (md_info_t (sha_context Z))) = 0.
Proof.
  split.
  - vm_compute. split; discriminate.
  - apply (md_get_size_spec _ (sha_info toy_plugin POLARSSL_MD_SHA512)).
    vm_compute. split; discriminate.
Defined.

(** Outside that range the conversion to [uint8_t] shows: a size field of
    256 is reported as 0. *)
Remark md_get_size_truncates (ctx_t : Type) (d : md_info_t ctx_t) :
  size d = 256 -> md_get_size (Some d) = 0.
Proof. intros H. unfold md_get_size. rewrite H. reflexivity. Qed.

(** C10.  On [NULL] the accessors do not read through the pointer:
    [md_get_type] answers [POLARSSL_MD_NONE], whose value is 0, and
    [md_get_name] answers [NULL]. *)
Theorem md_accessors_null (ctx_t : Type) :
  md_get_type (@None (md_info_t ctx_t)) = POLARSSL_MD_NONE /\
  md_type_value (md_get_type (@None (md_info_t ctx_t))) = 0 /\
  md_get_name (@None (md_info_t ctx_t)) = None.
Proof. repeat split. Qed.

(** On a descriptor they return its fields. *)
Remark md_accessors_some (ctx_t : Type) (d : md_info_t ctx_t) :
  md_get_type (Some d) = type d /\ md_get_name (Some d) = name d.
Proof. split; reflexivity. Qed.

End MdAccessorFacts.

(* --------------------------------------------------------------------- *)
(** ** md.h: the generic layer over block-buffering plug-ins               *)
(* --------------------------------------------------------------------- *)

Lemma firstn_length_app {A : Type} (l1 l2 : list A) :
  firstn (List.length l1) (l1 ++ l2) = l1.
Proof.
  induction l1 as [| x l1 IH]; cbn.
  - reflexivity.
  - rewrite IH. reflexivity.
Qed.

Lemma skipn_length_app {A : Type} (l1 l2 : list A) :
  skipn (List.length l1) (l1 ++ l2) = l2.
Proof.
  induction l1 as [| x l1 IH]; cbn.
  - reflexivity.
  - exact IH.
Qed.

Section PluginFacts.
Import MD.

Variable hstate : Type.
Variable p : md_plugin hstate.
Hypothesis block_len_pos : (0 < block_len p)%nat.

(** Less than a block: nothing is processed. *)
Lemma absorb_short (st : hstate) (data : list byte) :
  (List.length data < block_len p)%nat -> absorb p st data = (st, data).
Proof.
  intros H. unfold absorb. rewrite Nat.div_small by exact H. reflexivity.
Qed.

(** A leading whole block is processed first. *)
Lemma absorb_block (st : hstate) (blk tail : list byte) :
  List.length blk = block_len p ->
  absorb p st (blk ++ tail) = absorb p (h_process p st blk) tail.
Proof.
  intros H. unfold absorb.
  rewrite length_app, H.
  replace (block_len p + List.length tail)%nat
    with (1 * block_len p + List.length tail)%nat by lia.
  rewrite Nat.div_add_l by lia.
  change (1 + List.length tail / block_len p)%nat
    with (S (List.length tail / block_len p)).
  cbn [process_blocks].
  rewrite <- H, firstn_length_app, skipn_length_app.
  rewrite H. reflexivity.
Qed.

(** Every list is a whole block followed by the rest, once it is at least
    a block long. *)
Lemma split_block (x : list byte) :
  (block_len p <= List.length x)%nat ->
  exists blk x', x = blk ++ x' /\ List.length blk = block_len p /\
                 (List.length x' < List.length x)%nat.
Proof.
  intros H.
  exists (firstn (block_len p) x), (skipn (block_len p) x).
  split; [symmetry; apply firstn_skipn |].
  split.
  - rewrite length_firstn. lia.
  - rewrite length_skipn. lia.
Qed.

(** Absorbing a concatenation: absorb the first part, then what it left
    over followed by the second part. *)
Lemma absorb_app (x y : list byte) (st : hstate) :
  absorb p st (x ++ y)
  = let '(st', r) := absorb p st x in absorb p st' (r ++ y).
Proof.
  remember (List.length x) as n eqn:Hn.
  revert x st Hn.
  induction n as [n IH] using lt_wf_ind.
  intros x st Hn.
  destruct (Nat.lt_ge_cases (List.length x) (block_len p)) as [Hlt | Hge].
  - rewrite (absorb_short st x Hlt). reflexivity.
  - destruct (split_block x Hge) as [blk [x' [-> [Hblk Hx']]]].
    rewrite <- app_assoc.
    rewrite (absorb_block st blk (x' ++ y) Hblk).
    rewrite (absorb_block st blk x' Hblk).
    apply (IH (List.length x')); [lia | reflexivity].
Qed.

(** What absorbing leaves over is shorter than a block. *)
Lemma absorb_rest_short (x : list byte) (st : hstate) :
  (List.length (snd (absorb p st x)) < block_len p)%nat.
Proof.
  remember (List.length x) as n eqn:Hn.
  revert x st Hn.
  induction n as [n IH] using lt_wf_ind.
  intros x st Hn.
  destruct (Nat.lt_ge_cases (List.length x) (block_len p)) as [Hlt | Hge].
  - rewrite (absorb_short st x Hlt). exact Hlt.
  - destruct (split_block x Hge) as [blk [x' [-> [Hblk Hx']]]].
    rewrite absorb_block by exact Hblk.
    apply (IH (List.length x')); [lia | reflexivity].
Qed.

(** The buffering of [plugin_update] is invisible: an update absorbs the
    pending bytes followed by the input. *)
Lemma plugin_update_absorb (c : sha_context hstate) (input : list byte) :
  (List.length (buffer c) < block_len p)%nat ->
  plugin_update p c input
  = let '(st, r) := absorb p (state c) (buffer c ++ input) in
    {| total := total c + N.of_nat (List.length input);
       state := st; buffer := r |}.
Proof.
  destruct c as [t st buf]. cbn [buffer state total]. intros Hbuf.
  destruct input as [| b input'].
  - cbn [plugin_update]. rewrite app_nil_r, (absorb_short st buf Hbuf).
    cbn [List.length N.of_nat]. rewrite N.add_0_r. reflexivity.
  - remember (b :: input') as input eqn:Hin.
    assert (Hupd : plugin_update p (mk_sha_context t st buf) input
              = let left := List.length buf in
                let fill := (block_len p - left)%nat in
                let total' := (t + N.of_nat (List.length input))%N in
                if ((0 <? left)%nat && (fill <=? List.length input)%nat)%bool
                then
                  let st1 := h_process p st (buf ++ firstn fill input) in
                  let '(st2, rest) := absorb p st1 (skipn fill input) in
                  {| total := total'; state := st2; buffer := rest |}
                else
                  let '(st2, rest) := absorb p st input in
                  {| total := total'; state := st2; buffer := buf ++ rest |})
      by (rewrite Hin; reflexivity).
    rewrite Hupd. clear Hupd Hin b input'. cbv zeta.
    destruct (0 <? List.length buf)%nat eqn:Hleft;
      [destruct (block_len p - List.length buf <=? List.length input)%nat
         eqn:Hfill |]; cbn [andb].
    + apply Nat.leb_le in Hfill.
      rewrite <- (firstn_skipn (block_len p - List.length buf) input) at 3.
      rewrite app_assoc, absorb_block.
      * reflexivity.
      * rewrite length_app, length_firstn. lia.
    + apply Nat.leb_gt in Hfill.
      rewrite (absorb_short st input) by lia.
      rewrite (absorb_short st (buf ++ input))
        by (rewrite length_app; lia).
      reflexivity.
    + apply Nat.ltb_ge in Hleft.
      destruct buf as [| b0 buf]; [| cbn in Hleft; lia].
      cbn [app]. reflexivity.
Qed.

(** An update keeps the pending bytes shorter than a block. *)
Lemma plugin_update_buffer_short (c : sha_context hstate) (input : list byte) :
  (List.length (buffer c) < block_len p)%nat ->
  (List.length (buffer (plugin_update p c input)) < block_len p)%nat.
Proof.
  intros Hbuf. rewrite plugin_update_absorb by exact Hbuf.
  pose proof (absorb_rest_short (buffer c ++ input) (state c)) as H.
  destruct (absorb p (state c) (buffer c ++ input)) as [st r].
  exact H.
Qed.

(** Two updates in a row are one update with the concatenation. *)
Lemma plugin_update_app (c : sha_context hstate) (a b : list byte) :
  (List.length (buffer c) < block_len p)%nat ->
  plugin_update p (plugin_update p c a) b = plugin_update p c (a ++ b).
Proof.
  intros Hbuf.
  pose proof (plugin_update_buffer_short c a Hbuf) as Hbuf'.
  rewrite (plugin_update_absorb (plugin_update p c a) b Hbuf').
  rewrite (plugin_update_absorb c (a ++ b) Hbuf).
  rewrite (plugin_update_absorb c a Hbuf).
  rewrite app_assoc, (absorb_app (buffer c ++ a) b (state c)).
  destruct (absorb p (state c) (buffer c ++ a)) as [st1 r1].
  cbn [state buffer total].
  rewrite length_app, Nat2N.inj_add, N.add_assoc.
  reflexivity.
Qed.

(** Any chunking of a message gives the context of a single update. *)
Lemma plugin_update_chunks (chunks : list (list byte)) (c : sha_context hstate) :
  (List.length (buffer c) < block_len p)%nat ->
  fold_left (plugin_update p) chunks c = plugin_update p c (List.concat chunks).
Proof.
  revert c. induction chunks as [| a chunks IH]; intros c Hbuf.
  - reflexivity.
  - cbn [fold_left List.concat].
    rewrite IH by (apply plugin_update_buffer_short; exact Hbuf).
    apply plugin_update_app. exact Hbuf.
Qed.

End PluginFacts.

Section GenericLayerFacts.
Import MD.

Variable ctx_t : Type.

(** Updates on an active session succeed and thread the working state
    through the descriptor's update function, chunk after chunk. *)
Lemma md_update_fold (d : md_info_t ctx_t) (chunks : list (list byte)) (w : ctx_t) :
  fold_left (fun acc chunk => md_bind acc (fun c => md_update (Some c) chunk))
            chunks (md_ok {| md_info := Some d; md_ctx := Some w |})
  = md_ok {| md_info := Some d;
             md_ctx := Some (fold_left (update_func d) chunks w) |}.
Proof.
  revert w. induction chunks as [| a chunks IH]; intros w.
  - reflexivity.
  - cbn [fold_left]. cbn [md_bind md_update]. apply IH.
Qed.

(** A streaming session fails exactly when the context cannot be
    allocated; otherwise it returns what the descriptor's start, update
    and finish functions compute. *)
Lemma md_stream_run (d : md_info_t ctx_t) (chunks : list (list byte)) :
  md_stream d chunks
  = match ctx_alloc_func d with
    | None => md_err POLARSSL_ERR_MD_ALLOC_FAILED
    | Some w =>
        md_ok (finish_func d (fold_left (update_func d) chunks (starts_func d w)))
    end.
Proof.
  unfold md_stream, md_init_ctx.
  destruct (ctx_alloc_func d) as [w |]; [| reflexivity].
  cbn [md_bind md_starts].
  rewrite md_update_fold. reflexivity.
Qed.

End GenericLayerFacts.

Section RegistryFacts.
Import MD.

Lemma md_info_from_type_some {hstate : Type}
      (plugins : md_type_t -> md_plugin hstate) (k : md_type_t)
      (d : md_info_t (sha_context hstate)) :
  md_info_from_type plugins k = Some d ->
  k <> POLARSSL_MD_NONE /\ d = sha_info plugins k.
Proof.
  destruct k; cbn; intros H; inversion H; split; congruence.
Qed.

(** C2.  For every supported digest kind, whose plug-in buffers blocks of
    a positive length, and every input buffer: once the context of the
    session is allocated, the one-shot [md] returns byte for byte what the
    session start, update with the buffer, finish returns; both succeed;
    and feeding the buffer as two chunks in two successive updates returns
    the same output as one update with the whole buffer.  (The two chunks
    may be any split of the buffer, in particular any two non-empty
    ones.) *)
Theorem md_one_shot_and_chunking {hstate : Type}
        (plugins : md_type_t -> md_plugin hstate) (k : md_type_t)
        (d : md_info_t (sha_context hstate)) (c0 : sha_context hstate)
        (input : list byte) :
  (forall t, 0 < block_len (plugins t))%nat ->
  md_info_from_type plugins k = Some d ->
  ctx_alloc_func d = Some c0 ->
  (exists output,
      md (Some d) input = md_ok output /\
      md_stream d [input] = md_ok output /\
      forall a b, input = a ++ b -> md_stream d [a; b] = md_ok output) /\
  md (Some d) input = md_stream d [input].
Proof.
  intros Hpos Hd Halloc.
  apply md_info_from_type_some in Hd. destruct Hd as [_ ->].
  assert (Hone : md (Some (sha_info plugins k)) input
                 = md_stream (sha_info plugins k) [input]).
  { rewrite md_stream_run, Halloc. reflexivity. }
  split; [| exact Hone].
  exists (plugin_digest (plugins k) input).
  split; [reflexivity |].
  split; [rewrite <- Hone; reflexivity |].
  intros a b ->.
  rewrite md_stream_run, Halloc.
  cbn [fold_left sha_info update_func starts_func finish_func].
  rewrite plugin_update_app.
  - reflexivity.
  - apply Hpos.
  - cbn. apply Hpos.
Qed.

Lemma md_one_shot_and_chunking_witness :
  (forall t, 0 < block_len (toy_plugin t))%nat /\
  md_info_from_type toy_plugin POLARSSL_MD_SHA256
  = Some (sha_info toy_plugin POLARSSL_MD_SHA256) /\
  ctx_alloc_func (sha_info toy_plugin POLARSSL_MD_SHA256)
  = Some {| total := 99; state := -1; buffer := [x2a] |} /\
  (exists output,
      md (Some (sha_info toy_plugin POLARSSL_MD_SHA256)) toy_buffer
      = md_ok output /\
      md_stream (sha_info toy_plugin POLARSSL_MD_SHA256) [toy_buffer]
      = md_ok output /\
      forall a b, toy_buffer = a ++ b ->
        md_stream (sha_info toy_plugin POLARSSL_MD_SHA256) [a; b]
        = md_ok output) /\
  md (Some (sha_info toy_plugin POLARSSL_MD_SHA256)) toy_buffer
  = md_stream (sha_info toy_plugin POLARSSL_MD_SHA256) [toy_buffer].
Proof.
  split; [intros t; cbn; lia |].
  split; [reflexivity |].
  split; [reflexivity |].
  apply (md_one_shot_and_chunking toy_plugin POLARSSL_MD_SHA256
           (sha_info toy_plugin POLARSSL_MD_SHA256)
           {| total := 99; state := -1; buffer := [x2a] |} toy_buffer).
  - intros t. cbn. lia.
  - reflexivity.
  - reflexivity.
Defined.

(** On the sample buffer the common output is these four bytes, for the
    whole buffer and for a split after its fifth byte. *)
Example md_toy_run :
  md (Some (sha_info toy_plugin POLARSSL_MD_SHA256)) toy_buffer
  = md_ok [x97; x58; x32; xa9] /\
  md_stream (sha_info toy_plugin POLARSSL_MD_SHA256)
            [firstn 5 toy_buffer; skipn 5 toy_buffer]
  = md_ok [x97; x58; x32; xa9].
Proof. split; vm_compute; reflexivity. Qed.

(** The same holds for any number of chunks: a session fed chunk by chunk
    returns what a session fed the concatenation returns. *)
Corollary md_stream_any_chunking {hstate : Type}
          (plugins : md_type_t -> md_plugin hstate) (k : md_type_t)
          (chunks : list (list byte)) :
  (0 < block_len (plugins k))%nat ->
  md_stream (sha_info plugins k) chunks
  = md_stream (sha_info plugins k) [List.concat chunks].
Proof.
  intros Hpos. rewrite !md_stream_run.
  destruct (ctx_alloc_func (sha_info plugins k)) as [w |]; [| reflexivity].
  cbn [fold_left sha_info update_func starts_func finish_func].
  rewrite plugin_update_chunks; [reflexivity | exact Hpos |].
  cbn. exact Hpos.
Qed.

(** Without memory for the context the session fails with "alloc failed",
    while the one-shot form, which allocates nothing, still succeeds. *)
Remark md_stream_alloc_failed {hstate : Type}
       (plugins : md_type_t -> md_plugin hstate) (k : md_type_t)
       (chunks : list (list byte)) :
  p_alloc (plugins k) = None ->
  md_stream (sha_info plugins k) chunks = md_err POLARSSL_ERR_MD_ALLOC_FAILED.
Proof.
  intros H. rewrite md_stream_run. cbn [sha_info ctx_alloc_func].
  rewrite H. reflexivity.
Qed.

(** C5, counterexample.  [POLARSSL_MD_MAX_SIZE] is not 64 in every build:
    where [POLARSSL_SHA512_C] is not defined it is 32. *)
Lemma md_max_size_without_sha512 :
  POLARSSL_MD_MAX_SIZE false = 32 /\ POLARSSL_MD_MAX_SIZE false <> 64.
Proof. split; [reflexivity | discriminate]. Qed.

(** C5 (amended).  [POLARSSL_MD_MAX_SIZE] is 64 bytes when the build
    defines [POLARSSL_SHA512_C] and 32 bytes otherwise, so it never
    exceeds 64; and the output size of every supported digest kind is at
    most 64 bytes. *)
Theorem md_max_size_bound {hstate : Type}
        (plugins : md_type_t -> md_plugin hstate) :
  POLARSSL_MD_MAX_SIZE true = 64 /\
  POLARSSL_MD_MAX_SIZE false = 32 /\
  (forall POLARSSL_SHA512_C, POLARSSL_MD_MAX_SIZE POLARSSL_SHA512_C <= 64) /\
  (forall k d, md_info_from_type plugins k = Some d ->
               0 < size d <= 64 /\ md_get_size (Some d) = size d /\
               size d <= POLARSSL_MD_MAX_SIZE true).
Proof.
  split; [reflexivity |].
  split; [reflexivity |].
  split.
  - intros [|]; cbn; lia.
  - intros k d Hd. apply md_info_from_type_some in Hd.
    destruct Hd as [Hk ->].
    destruct k; try congruence; cbn; repeat split; lia.
Qed.

End RegistryFacts.

(* ===================================================================== *)
(** * Part III: further properties of the headers                         *)
(* ===================================================================== *)

(* --------------------------------------------------------------------- *)
(** ** winsock.h: flag words                                               *)
(* --------------------------------------------------------------------- *)

Section FlagWordFacts.
Import Winsock.

Lemma land_pow2 (m b : Z) :
  0 <= b -> Z.land m (2 ^ b) = if Z.testbit m b then 2 ^ b else 0.
Proof.
  intros Hb. apply Z.bits_inj'. intros n Hn.
  rewrite Z.land_spec, Z.pow2_bits_eqb by exact Hb.
  destruct (Z.eqb_spec b n) as [-> | Hne].
  - destruct (Z.testbit m n).
    + rewrite Z.pow2_bits_eqb, Z.eqb_refl by exact Hn. reflexivity.
    + rewrite Z.bits_0. reflexivity.
  - rewrite andb_false_r.
    destruct (Z.testbit m b).
    + rewrite Z.pow2_bits_eqb by exact Hb.
      symmetry. apply Z.eqb_neq. exact Hne.
    + rewrite Z.bits_0. reflexivity.
Qed.

Lemma single_bit_nonzero (e : Z) : single_bit e -> e <> 0.
Proof.
  intros [b [Hb ->]]. apply Z.pow_nonzero; lia.
Qed.

(** Looking for a one-bit flag gives the flag or nothing. *)
Lemma land_single_bit (m e : Z) :
  single_bit e -> Z.land m e = if has_flag m e then e else 0.
Proof.
  intros He. pose proof (single_bit_nonzero e He) as Hnz.
  destruct He as [b [Hb ->]].
  unfold has_flag. rewrite (land_pow2 m b Hb).
  destruct (Z.testbit m b).
  - apply Z.eqb_neq in Hnz. rewrite Hnz. reflexivity.
  - reflexivity.
Qed.

Lemma land_distinct_bits (x e : Z) :
  single_bit x -> single_bit e -> x <> e -> Z.land x e = 0.
Proof.
  intros [a [Ha ->]] [b [Hb ->]] Hne.
  rewrite (land_pow2 (2 ^ a) b Hb), Z.pow2_bits_eqb by exact Ha.
  destruct (Z.eqb_spec a b) as [-> | _]; [congruence | reflexivity].
Qed.

(** The flags found in a word make up the part of the word that the
    flags cover. *)
Lemma flags_in_word (m : Z) (l : list Z) :
  List.Forall single_bit l ->
  flags_word (flags_in m l) = Z.land m (flags_word l).
Proof.
  induction 1 as [| e l He Hl IH]; cbn [flags_in flags_word filter fold_right].
  - rewrite Z.land_0_r. reflexivity.
  - fold (flags_in m l). fold (flags_word l).
    rewrite Z.land_lor_distr_r, (land_single_bit m e He).
    destruct (has_flag m e); cbn [fold_right].
    + fold (flags_word (flags_in m l)). rewrite IH. reflexivity.
    + rewrite Z.lor_0_l. exact IH.
Qed.

(** A one-bit flag is found in the word of a set of one-bit flags exactly
    when it is a member. *)
Lemma has_flag_word (l : list Z) (e : Z) :
  List.Forall single_bit l -> single_bit e ->
  has_flag (flags_word l) e = true <-> In e l.
Proof.
  intros Hl He. induction Hl as [| x l Hx Hl IH].
  - cbn. split; [discriminate | tauto].
  - cbn [flags_word fold_right In]. fold (flags_word l).
    unfold has_flag in *.
    rewrite Z.land_lor_distr_l.
    destruct (Z.eq_dec x e) as [-> | Hne].
    + rewrite Z.land_diag. split; [tauto | intros _].
      apply negb_true_iff, Z.eqb_neq. intros H0.
      apply Z.lor_eq_0_iff in H0. destruct H0 as [H0 _].
      exact (single_bit_nonzero e He H0).
    + rewrite (land_distinct_bits x e Hx He Hne), Z.lor_0_l.
      rewrite IH. split; [tauto | intros [H | H]; [congruence | exact H]].
Qed.

(** Decoding the word of a selection of flags gives the selection back. *)
Lemma flags_in_flags_word (l : list Z) (f : Z -> bool) :
  List.Forall single_bit l ->
  flags_in (flags_word (filter f l)) l = filter f l.
Proof.
  intros Hl. unfold flags_in. apply filter_ext_in. intros e He.
  assert (Hse : single_bit e) by (rewrite Forall_forall in Hl; auto).
  assert (Hsub : List.Forall single_bit (filter f l)).
  { rewrite Forall_forall in *. intros x Hx.
    apply filter_In in Hx. apply Hl. tauto. }
  pose proof (has_flag_word (filter f l) e Hsub Hse) as H.
  rewrite filter_In in H.
  destruct (has_flag (flags_word (filter f l)) e), (f e); intuition congruence.
Qed.

Lemma poll_events_single_bit : List.Forall single_bit afd_poll_events.
Proof.
  change afd_poll_events
    with (List.map (fun b => 2 ^ Z.of_nat b) (seq 0 11)).
  apply Forall_forall. intros e He. apply in_map_iff in He.
  destruct He as [b [<- _]]. exists (Z.of_nat b). split; [lia | reflexivity].
Qed.

Lemma tdi_flags_single_bit : List.Forall single_bit tdi_receive_flags.
Proof.
  change tdi_receive_flags
    with (List.map (fun b => 2 ^ Z.of_nat b) (seq 2 13)).
  apply Forall_forall. intros e He. apply in_map_iff in He.
  destruct He as [b [<- _]]. exists (Z.of_nat b). split; [lia | reflexivity].
Qed.

(** X1.  The poll events found in a word by [word & EVENT] are, or-ed
    together, the word masked with [AFD_POLL_ALL], which is its low eleven
    bits: a word within [AFD_POLL_ALL] is exactly the union of the events
    it tests positive for. *)
Theorem afd_poll_word_decomposes (m : Z) :
  flags_word (flags_in m afd_poll_events) = Z.land m AFD_POLL_ALL /\
  Z.land m AFD_POLL_ALL = m mod 2 ^ 11 /\
  (0 <= m <= AFD_POLL_ALL -> flags_word (flags_in m afd_poll_events) = m).
Proof.
  assert (H1 : flags_word (flags_in m afd_poll_events) = Z.land m AFD_POLL_ALL).
  { rewrite (flags_in_word m afd_poll_events poll_events_single_bit).
    reflexivity. }
  assert (H2 : Z.land m AFD_POLL_ALL = m mod 2 ^ 11).
  { change AFD_POLL_ALL with (Z.ones 11). apply Z.land_ones. lia. }
  split; [exact H1 |]. split; [exact H2 |].
  intros Hm. rewrite H1, H2. apply Z.mod_small.
  change AFD_POLL_ALL with 2047 in Hm. change (2 ^ 11) with 2048. lia.
Qed.

(** X2.  Round trip for poll event sets: or-ing any selection of the
    eleven poll events into a word and testing the word against every
    event gives that selection back, in the header's order. *)
Theorem afd_poll_events_round_trip (f : Z -> bool) :
  flags_in (flags_word (filter f afd_poll_events)) afd_poll_events
  = filter f afd_poll_events.
Proof.
  apply flags_in_flags_word. exact poll_events_single_bit.
Qed.

(** X3.  The thirteen TDI receive flags are the single bits 2 to 14, so a
    selection of them or-ed into a word is recovered by testing the word
    against every flag, and the flags found in any word make up the word
    masked with [0x7FFC]. *)
Theorem tdi_receive_flags_round_trip (f : Z -> bool) (m : Z) :
  tdi_receive_flags = List.map (fun b => Z.shiftl 1 (Z.of_nat b)) (seq 2 13) /\
  flags_in (flags_word (filter f tdi_receive_flags)) tdi_receive_flags
  = filter f tdi_receive_flags /\
  flags_word (flags_in m tdi_receive_flags) = Z.land m 0x7FFC.
Proof.
  split; [reflexivity |]. split.
  - apply flags_in_flags_word. exact tdi_flags_single_bit.
  - rewrite (flags_in_word m tdi_receive_flags tdi_flags_single_bit).
    reflexivity.
Qed.

End FlagWordFacts.

(* --------------------------------------------------------------------- *)
(** ** winsock.h: the fields of a control code                             *)
(* --------------------------------------------------------------------- *)

Section ControlCodeFacts.
Import Winsock.

(** Or-ing a value below [2^n] under a value shifted left by [n] adds
    them. *)
Lemma lor_shiftl_low (hi lo n : Z) :
  0 <= n -> 0 <= lo < 2 ^ n ->
  Z.lor (Z.shiftl hi n) lo = hi * 2 ^ n + lo.
Proof.
  intros Hn Hlo.
  assert (Hdisj : Z.land (Z.shiftl hi n) lo = 0).
  { apply Z.bits_inj'. intros i Hi.
    rewrite Z.land_spec, Z.bits_0.
    destruct (Z.lt_ge_cases i n) as [Hlt | Hge].
    - rewrite Z.shiftl_spec_low by exact Hlt. reflexivity.
    - rewrite <- (Z.mod_small lo (2 ^ n)) by exact Hlo.
      rewrite Z.mod_pow2_bits_high by lia.
      apply andb_false_r. }
  rewrite <- Z.lxor_lor by exact Hdisj.
  rewrite <- Z.add_nocarry_lxor by exact Hdisj.
  rewrite Z.shiftl_mul_pow2 by exact Hn. reflexivity.
Qed.

(** With the operation below [2^10] and the method below [2^2] the three
    fields of a control code do not overlap. *)
Lemma afd_control_code_sum (base operation method : Z) :
  0 <= operation < 2 ^ 10 -> 0 <= method < 2 ^ 2 ->
  _AFD_CONTROL_CODE base operation method
  = base * 2 ^ 12 + operation * 2 ^ 2 + method.
Proof.
  intros Hop Hm. unfold _AFD_CONTROL_CODE, FSCTL_AFD_BASE.
  rewrite (Z.shiftl_mul_pow2 operation 2) by lia.
  rewrite (lor_shiftl_low base (operation * 2 ^ 2) 12)
    by (change (2 ^ 12) with 4096; change (2 ^ 2) with 4;
        change (2 ^ 10) with 1024 in Hop; lia).
  replace (base * 2 ^ 12 + operation * 2 ^ 2)
    with (Z.shiftl (base * 2 ^ 10 + operation) 2)
    by (rewrite Z.shiftl_mul_pow2 by lia;
        change (2 ^ 12) with 4096; change (2 ^ 2) with 4;
        change (2 ^ 10) with 1024; ring).
  rewrite (lor_shiftl_low (base * 2 ^ 10 + operation) method 2) by lia.
  rewrite Z.shiftl_mul_pow2 by lia. reflexivity.
Qed.

(** X4.  A control code can be taken apart again: when the operation is
    below 1024 and the transfer method below 4, the low two bits of
    [_AFD_CONTROL_CODE(operation, method)] are the method, the next ten
    bits the operation, and the bits from 12 up the base code. *)
Theorem afd_control_code_fields (base operation method : Z) :
  0 <= operation < 2 ^ 10 -> 0 <= method < 2 ^ 2 ->
  Z.land (_AFD_CONTROL_CODE base operation method) 3 = method /\
  Z.land (Z.shiftr (_AFD_CONTROL_CODE base operation method) 2) 0x3FF
  = operation /\
  Z.shiftr (_AFD_CONTROL_CODE base operation method) 12 = base.
Proof.
  intros Hop Hm.
  rewrite (afd_control_code_sum base operation method Hop Hm).
  change 3 with (Z.ones 2). change 0x3FF with (Z.ones 10).
  rewrite !Z.land_ones, !Z.shiftr_div_pow2 by lia.
  change (2 ^ 12) with 4096 in *. change (2 ^ 10) with 1024 in *.
  change (2 ^ 2) with 4 in *.
  split; [| split].
  - replace (base * 4096 + operation * 4 + method)
      with (method + (base * 1024 + operation) * 4) by ring.
    rewrite Z.mod_add by lia. apply Z.mod_small. lia.
  - replace (base * 4096 + operation * 4 + method)
      with (method + (base * 1024 + operation) * 4) by ring.
    rewrite Z.div_add by lia. rewrite (Z.div_small method 4) by lia.
    rewrite Z.add_0_l, Z.add_comm, Z.mod_add by lia.
    apply Z.mod_small. lia.
  - replace (base * 4096 + operation * 4 + method)
      with (operation * 4 + method + base * 4096) by ring.
    rewrite Z.div_add by lia.
    rewrite (Z.div_small (operation * 4 + method) 4096) by lia.
    reflexivity.
Qed.

Lemma afd_control_code_fields_witness :
  0 <= 9 < 2 ^ 10 /\ 0 <= 3 < 2 ^ 2 /\
  Z.land (_AFD_CONTROL_CODE 0x12 9 3) 3 = 3 /\
  Z.land (Z.shiftr (_AFD_CONTROL_CODE 0x12 9 3) 2) 0x3FF = 9 /\
  Z.shiftr (_AFD_CONTROL_CODE 0x12 9 3) 12 = 0x12.
Proof.
  split; [split; [lia | reflexivity] |].
  split; [split; [lia | reflexivity] |].
  apply (afd_control_code_fields 0x12 9 3).
  - split; [lia | reflexivity].
  - split; [lia | reflexivity].
Defined.

(** X5.  Whatever the device base code, the three control codes of the
    header are pairwise distinct as soon as the two transfer methods are
    two-bit values. *)
Theorem afd_ioctls_distinct (FILE_DEVICE_NETWORK METHOD_BUFFERED METHOD_NEITHER : Z) :
  0 <= METHOD_BUFFERED < 4 -> 0 <= METHOD_NEITHER < 4 ->
  NoDup [ IOCTL_AFD_RECEIVE FILE_DEVICE_NETWORK METHOD_NEITHER;
          IOCTL_AFD_RECEIVE_DATAGRAM FILE_DEVICE_NETWORK METHOD_NEITHER;
          IOCTL_AFD_POLL FILE_DEVICE_NETWORK METHOD_BUFFERED ].
Proof.
  intros Hb Hn.
  unfold IOCTL_AFD_RECEIVE, IOCTL_AFD_RECEIVE_DATAGRAM, IOCTL_AFD_POLL,
    AFD_RECEIVE, AFD_RECEIVE_DATAGRAM, AFD_POLL.
  rewrite !afd_control_code_sum by (change (2 ^ 10) with 1024;
                                    change (2 ^ 2) with 4; lia).
  change (2 ^ 2) with 4.
  repeat constructor; cbn [In]; lia.
Qed.

Lemma afd_ioctls_distinct_witness :
  0 <= 0 < 4 /\ 0 <= 3 < 4 /\
  NoDup [ IOCTL_AFD_RECEIVE 0x12 3; IOCTL_AFD_RECEIVE_DATAGRAM 0x12 3;
          IOCTL_AFD_POLL 0x12 0 ].
Proof.
  split; [lia |]. split; [lia |].
  apply (afd_ioctls_distinct 0x12 0 3); lia.
Defined.

(** Without the bound on the method the codes can collide: a "method" with
    bits 2 and 3 set hides the difference between operations 5 and 6. *)
Remark afd_control_code_collision :
  _AFD_CONTROL_CODE 0x12 5 12 = _AFD_CONTROL_CODE 0x12 6 12.
Proof. reflexivity. Qed.

End ControlCodeFacts.

(* --------------------------------------------------------------------- *)
(** ** raw_disk.h: sector sizes                                            *)
(* --------------------------------------------------------------------- *)

Section SectorSizeFacts.
Import RawDisk.

Lemma sector_size_valid_iff (s : Z) :
  IS_INVALID_SECTOR_SIZE s = 0 <-> (SECTOR_SIZE | s).
Proof.
  unfold IS_INVALID_SECTOR_SIZE. apply Z.rem_divide. discriminate.
Qed.

Lemma sector_size_divides_word (w : Z) : 9 <= w -> (SECTOR_SIZE | 2 ^ w).
Proof.
  intros Hw. exists (2 ^ (w - 9)).
  change SECTOR_SIZE with (2 ^ 9).
  rewrite <- Z.pow_add_r by lia. f_equal. lia.
Qed.

Lemma divide_wrap (a w x : Z) : (a | 2 ^ w) -> (a | x) -> (a | wrap w x).
Proof.
  intros Hw Hx. unfold wrap.
  destruct (Z.eq_dec (2 ^ w) 0) as [E | Hnz].
  - rewrite E, Z.mod_0_r. exact Hx.
  - rewrite Z.mod_eq by exact Hnz.
    apply Z.divide_sub_r; [exact Hx |].
    apply Z.divide_mul_l. exact Hw.
Qed.

(** X6.  For a length that is not negative the check returns the low nine
    bits of the length, a value from 0 to 511; for a negative length it
    returns the negated result of the opposite length, so the result is
    never beyond 511 in absolute value. *)
Theorem invalid_sector_size_low_bits (s : Z) :
  (0 <= s -> IS_INVALID_SECTOR_SIZE s = Z.land s 511 /\
             0 <= IS_INVALID_SECTOR_SIZE s <= 511) /\
  IS_INVALID_SECTOR_SIZE (- s) = - IS_INVALID_SECTOR_SIZE s /\
  Z.abs (IS_INVALID_SECTOR_SIZE s) <= 511.
Proof.
  unfold IS_INVALID_SECTOR_SIZE, SECTOR_SIZE.
  split; [| split].
  - intros Hs. rewrite Z.rem_mod_nonneg by lia.
    change 511 with (Z.ones 9) at 1. rewrite Z.land_ones by lia.
    change (2 ^ 9) with 512.
    pose proof (Z.mod_pos_bound s 512 ltac:(lia)). lia.
  - apply Z.rem_opp_l. discriminate.
  - pose proof (Z.rem_bound_abs s 512 ltac:(discriminate)) as H.
    change (Z.abs 512) with 512 in H. lia.
Qed.

(** X7.  Lengths that pass the check stay valid under the arithmetic done
    on them: sums, differences and multiples of valid lengths are valid,
    any number of sectors times [SECTOR_SIZE] is valid, and so is a sum
    that has wrapped around in a word of at least nine bits. *)
Theorem valid_sector_sizes_closed (a b n w : Z) :
  IS_INVALID_SECTOR_SIZE a = 0 -> IS_INVALID_SECTOR_SIZE b = 0 ->
  IS_INVALID_SECTOR_SIZE (a + b) = 0 /\
  IS_INVALID_SECTOR_SIZE (a - b) = 0 /\
  IS_INVALID_SECTOR_SIZE (n * a) = 0 /\
  IS_INVALID_SECTOR_SIZE (n * SECTOR_SIZE) = 0 /\
  (9 <= w -> IS_INVALID_SECTOR_SIZE (wrap w (a + b)) = 0 /\
             IS_INVALID_SECTOR_SIZE (wrap w (n * a)) = 0).
Proof.
  rewrite !sector_size_valid_iff. intros Ha Hb.
  split; [apply Z.divide_add_r; assumption |].
  split; [apply Z.divide_sub_r; assumption |].
  split; [apply Z.divide_mul_r; assumption |].
  split; [apply Z.divide_mul_r; apply Z.divide_refl |].
  intros Hw. split.
  - apply divide_wrap; [apply sector_size_divides_word; exact Hw |].
    apply Z.divide_add_r; assumption.
  - apply divide_wrap; [apply sector_size_divides_word; exact Hw |].
    apply Z.divide_mul_r; assumption.
Qed.

Lemma valid_sector_sizes_closed_witness :
  IS_INVALID_SECTOR_SIZE 4294966784 = 0 /\ IS_INVALID_SECTOR_SIZE 1024 = 0 /\
  IS_INVALID_SECTOR_SIZE (4294966784 + 1024) = 0 /\
  IS_INVALID_SECTOR_SIZE (4294966784 - 1024) = 0 /\
  IS_INVALID_SECTOR_SIZE (3 * 4294966784) = 0 /\
  IS_INVALID_SECTOR_SIZE (3 * SECTOR_SIZE) = 0 /\
  (9 <= 32 -> IS_INVALID_SECTOR_SIZE (wrap 32 (4294966784 + 1024)) = 0 /\
              IS_INVALID_SECTOR_SIZE (wrap 32 (3 * 4294966784)) = 0).
Proof.
  split; [reflexivity |]. split; [reflexivity |].
  apply (valid_sector_sizes_closed 4294966784 1024 3 32); reflexivity.
Defined.

End SectorSizeFacts.

(* --------------------------------------------------------------------- *)
(** ** raw_disk.h: alignment                                               *)
(* --------------------------------------------------------------------- *)

Section AlignFacts.
Import RawDisk.

(** [_ALIGN] with a power of two rounds up in the integers and reduces
    the result to a word. *)
Lemma align_pow2_eq (w k s : Z) :
  0 <= k < w ->
  _ALIGN w s (2 ^ k) = wrap w ((s + (2 ^ k - 1)) / 2 ^ k * 2 ^ k).
Proof.
  intros Hk.
  assert (Hpk : 0 < 2 ^ k) by (apply Z.pow_pos_nonneg; lia).
  assert (Hlt : 2 ^ k < 2 ^ w) by (apply Z.pow_lt_mono_r; lia).
  unfold _ALIGN.
  rewrite (wrap_small w (2 ^ k - 1)) by lia.
  replace (2 ^ k - 1) with (Z.ones k) by (rewrite Z.ones_equiv; lia).
  rewrite land_wrap_lnot_ones by lia.
  apply round_down_wrap. lia.
Qed.

Lemma pow2_divides_word (w k : Z) : 0 <= k <= w -> (2 ^ k | 2 ^ w).
Proof.
  intros Hk. exists (2 ^ (w - k)).
  rewrite <- Z.pow_add_r by lia. f_equal. lia.
Qed.

(** Rounding a multiple up leaves it alone. *)
Lemma round_up_multiple (a r : Z) :
  0 < a -> (a | r) -> (r + (a - 1)) / a * a = r.
Proof.
  intros Ha [q ->].
  replace (q * a + (a - 1)) with (a - 1 + q * a) by ring.
  rewrite Z.div_add by lia.
  rewrite (Z.div_small (a - 1) a) by lia.
  reflexivity.
Qed.

Lemma round_up_bounds (a s : Z) :
  0 < a -> s <= (s + (a - 1)) / a * a < s + a.
Proof.
  intros Ha.
  pose proof (Z.div_mod (s + (a - 1)) a ltac:(lia)) as Hdm.
  pose proof (Z.mod_pos_bound (s + (a - 1)) a Ha) as Hmb.
  nia.
Qed.

Lemma wrap_range (w x : Z) : 0 <= w -> 0 <= wrap w x < 2 ^ w.
Proof.
  intros Hw. unfold wrap. apply Z.mod_pos_bound.
  apply Z.pow_pos_nonneg; lia.
Qed.

Lemma align_multiple (w k s : Z) :
  0 <= k < w -> (2 ^ k | _ALIGN w s (2 ^ k)).
Proof.
  intros Hk. rewrite align_pow2_eq by exact Hk.
  apply divide_wrap; [apply pow2_divides_word; lia |].
  apply Z.divide_factor_r.
Qed.

(** X8.  The result of [_ALIGN] with a power of two is always a word that
    is a multiple of the alignment, also when the sum wrapped around; in
    particular, in words of more than nine bits, a size aligned to
    [SECTOR_SIZE] passes the sector-size check. *)
Theorem align_result_aligned (w k s : Z) :
  0 <= k < w ->
  0 <= _ALIGN w s (2 ^ k) < 2 ^ w /\
  _ALIGN w s (2 ^ k) mod 2 ^ k = 0 /\
  (k = 9 -> IS_INVALID_SECTOR_SIZE (_ALIGN w s SECTOR_SIZE) = 0).
Proof.
  intros Hk.
  assert (Hpk : 0 < 2 ^ k) by (apply Z.pow_pos_nonneg; lia).
  split; [rewrite align_pow2_eq by exact Hk; apply wrap_range; lia |].
  split.
  - apply Z.mod_divide; [lia | apply align_multiple; exact Hk].
  - intros ->. apply sector_size_valid_iff.
    change SECTOR_SIZE with (2 ^ 9). apply align_multiple. exact Hk.
Qed.

Lemma align_result_aligned_witness :
  0 <= 9 < 32 /\
  0 <= _ALIGN 32 4294967000 (2 ^ 9) < 2 ^ 32 /\
  _ALIGN 32 4294967000 (2 ^ 9) mod 2 ^ 9 = 0 /\
  (9 = 9 -> IS_INVALID_SECTOR_SIZE (_ALIGN 32 4294967000 SECTOR_SIZE) = 0).
Proof.
  split; [lia |].
  apply (align_result_aligned 32 9 4294967000). lia.
Defined.

(** X9.  Aligning is idempotent: aligning an aligned size again changes
    nothing. *)
Theorem align_idempotent (w k s : Z) :
  0 <= k < w ->
  _ALIGN w (_ALIGN w s (2 ^ k)) (2 ^ k) = _ALIGN w s (2 ^ k).
Proof.
  intros Hk.
  assert (Hpk : 0 < 2 ^ k) by (apply Z.pow_pos_nonneg; lia).
  rewrite (align_pow2_eq w k (_ALIGN w s (2 ^ k))) by exact Hk.
  rewrite round_up_multiple by (try apply align_multiple; assumption).
  rewrite align_pow2_eq by exact Hk.
  apply wrap_wrap. lia.
Qed.

Lemma align_idempotent_witness :
  0 <= 12 < 64 /\
  _ALIGN 64 (_ALIGN 64 123456789 (2 ^ 12)) (2 ^ 12)
  = _ALIGN 64 123456789 (2 ^ 12).
Proof.
  split; [lia |]. apply (align_idempotent 64 12 123456789). lia.
Defined.

(** X10.  As long as [size + align - 1] does not overflow the word, the
    aligned size lies in [size, size + align), and it equals the size
    exactly when the size is already a multiple of the alignment. *)
Theorem align_no_overflow (w k s : Z) :
  0 <= k < w -> 0 <= s -> s + (2 ^ k - 1) < 2 ^ w ->
  s <= _ALIGN w s (2 ^ k) < s + 2 ^ k /\
  (_ALIGN w s (2 ^ k) = s <-> s mod 2 ^ k = 0).
Proof.
  intros Hk Hs Hov.
  assert (Hpk : 0 < 2 ^ k) by (apply Z.pow_pos_nonneg; lia).
  pose proof (round_up_bounds (2 ^ k) s Hpk) as Hb.
  assert (E : _ALIGN w s (2 ^ k) = (s + (2 ^ k - 1)) / 2 ^ k * 2 ^ k).
  { rewrite align_pow2_eq by exact Hk. apply wrap_small. lia. }
  split; [rewrite E; exact Hb |].
  split.
  - intros H. apply Z.mod_divide; [lia |].
    rewrite <- H. apply align_multiple. exact Hk.
  - intros H. rewrite E. apply round_up_multiple; [exact Hpk |].
    apply Z.mod_divide; [lia | exact H].
Qed.

Lemma align_no_overflow_witness :
  0 <= 9 < 32 /\ 0 <= 1000 /\ 1000 + (2 ^ 9 - 1) < 2 ^ 32 /\
  1000 <= _ALIGN 32 1000 (2 ^ 9) < 1000 + 2 ^ 9 /\
  (_ALIGN 32 1000 (2 ^ 9) = 1000 <-> 1000 mod 2 ^ 9 = 0).
Proof.
  split; [lia |]. split; [lia |]. split; [reflexivity |].
  apply (align_no_overflow 32 9 1000); [lia | lia | reflexivity].
Defined.

(** X11.  Without overflow aligning is monotone: a larger size never gets
    a smaller aligned size. *)
Theorem align_monotone (w k s t : Z) :
  0 <= k < w -> 0 <= s <= t -> t + (2 ^ k - 1) < 2 ^ w ->
  _ALIGN w s (2 ^ k) <= _ALIGN w t (2 ^ k).
Proof.
  intros Hk Hst Hov.
  assert (Hpk : 0 < 2 ^ k) by (apply Z.pow_pos_nonneg; lia).
  pose proof (round_up_bounds (2 ^ k) s Hpk) as Hbs.
  pose proof (round_up_bounds (2 ^ k) t Hpk) as Hbt.
  rewrite !align_pow2_eq by exact Hk.
  rewrite !wrap_small by lia.
  apply Z.mul_le_mono_nonneg_r; [lia |].
  apply Z.div_le_mono; lia.
Qed.

Lemma align_monotone_witness :
  0 <= 9 < 32 /\ 0 <= 513 <= 1024 /\ 1024 + (2 ^ 9 - 1) < 2 ^ 32 /\
  _ALIGN 32 513 (2 ^ 9) <= _ALIGN 32 1024 (2 ^ 9).
Proof.
  split; [lia |]. split; [lia |]. split; [reflexivity |].
  apply (align_monotone 32 9 513 1024); [lia | lia | reflexivity].
Defined.

(** X12.  Above the last multiple of the alignment that fits in a word the
    sum overflows and [_ALIGN] returns 0, which is below the size it was
    given. *)
Theorem align_overflow_zero (w k s : Z) :
  0 <= k < w -> 2 ^ w - 2 ^ k < s < 2 ^ w ->
  _ALIGN w s (2 ^ k) = 0 /\ _ALIGN w s (2 ^ k) < s.
Proof.
  intros Hk Hs.
  assert (Hpk : 0 < 2 ^ k) by (apply Z.pow_pos_nonneg; lia).
  assert (Hpd : 0 < 2 ^ (w - k)) by (apply Z.pow_pos_nonneg; lia).
  assert (Hw : 2 ^ w = 2 ^ (w - k) * 2 ^ k)
    by (rewrite <- Z.pow_add_r by lia; f_equal; lia).
  assert (E : _ALIGN w s (2 ^ k) = 0).
  { rewrite align_pow2_eq by exact Hk.
    assert (Hq : (s + (2 ^ k - 1)) / 2 ^ k = 2 ^ (w - k)).
    { symmetry. apply (Z.div_unique_pos _ _ _ (s + (2 ^ k - 1) - 2 ^ w)); lia. }
    rewrite Hq, <- Hw. unfold wrap. apply Z.mod_same. lia. }
  assert (Hlt : 2 ^ k < 2 ^ w) by (apply Z.pow_lt_mono_r; lia).
  split; [exact E | rewrite E; lia].
Qed.

Lemma align_overflow_zero_witness :
  0 <= 9 < 32 /\ 2 ^ 32 - 2 ^ 9 < 4294967000 < 2 ^ 32 /\
  _ALIGN 32 4294967000 (2 ^ 9) = 0 /\ _ALIGN 32 4294967000 (2 ^ 9) < 4294967000.
Proof.
  split; [lia |]. split; [split; reflexivity |].
  apply (align_overflow_zero 32 9 4294967000); [lia | split; reflexivity].
Defined.

(** X13.  Moving a size by whole alignment units moves its aligned size by
    the same amount (in the word): an offset aligned relative to an
    aligned base is aligned absolutely. *)
Theorem align_shift (w k s n : Z) :
  0 <= k < w ->
  _ALIGN w (s + n * 2 ^ k) (2 ^ k) = wrap w (_ALIGN w s (2 ^ k) + n * 2 ^ k).
Proof.
  intros Hk.
  assert (Hpk : 0 < 2 ^ k) by (apply Z.pow_pos_nonneg; lia).
  rewrite !align_pow2_eq by exact Hk.
  replace (s + n * 2 ^ k + (2 ^ k - 1)) with (s + (2 ^ k - 1) + n * 2 ^ k)
    by ring.
  rewrite Z.div_add by lia.
  rewrite Z.mul_add_distr_r.
  unfold wrap. rewrite Z.add_mod_idemp_l by (apply Z.pow_nonzero; lia).
  reflexivity.
Qed.

Lemma align_shift_witness :
  0 <= 9 < 32 /\
  _ALIGN 32 (1000 + 7 * 2 ^ 9) (2 ^ 9) = wrap 32 (_ALIGN 32 1000 (2 ^ 9) + 7 * 2 ^ 9).
Proof.
  split; [lia |]. apply (align_shift 32 9 1000 7). lia.
Defined.

(** X14.  The degenerate alignments: alignment 0 gives 0 for every size,
    and alignment 1 gives the size back (as a word). *)
Theorem align_degenerate (w s : Z) :
  0 < w ->
  _ALIGN w s 0 = 0 /\ _ALIGN w s 1 = wrap w s.
Proof.
  intros Hw.
  assert (Hpw : 0 < 2 ^ w) by (apply Z.pow_pos_nonneg; lia).
  split.
  - unfold _ALIGN.
    assert (E : wrap w (0 - 1) = 2 ^ w - 1).
    { unfold wrap. symmetry.
      apply (Z.mod_unique_pos _ _ (-1)); lia. }
    rewrite E.
    replace (Z.lnot (2 ^ w - 1)) with (- 1 * 2 ^ w)
      by (unfold Z.lnot; lia).
    unfold wrap at 2. rewrite Z.mod_mul by lia.
    apply Z.land_0_r.
  - change 1 with (2 ^ 0) at 1. rewrite align_pow2_eq by lia.
    change (2 ^ 0) with 1. rewrite Z.sub_diag, Z.add_0_r, Z.div_1_r, Z.mul_1_r.
    reflexivity.
Qed.

Lemma align_degenerate_witness :
  0 < 32 /\ _ALIGN 32 12345 0 = 0 /\ _ALIGN 32 12345 1 = wrap 32 12345.
Proof.
  split; [lia |]. apply (align_degenerate 32 12345). lia.
Defined.

(** An alignment that is not a power of two does not round to its
    multiples: [_ALIGN(4, 3)] is 4. *)
Remark align_not_pow2 : _ALIGN 32 4 3 = 4 /\ 4 mod 3 <> 0.
Proof. split; [reflexivity | discriminate]. Qed.

End AlignFacts.

(* --------------------------------------------------------------------- *)
(** ** md.h: what [md_get_size] can report                                 *)
(* --------------------------------------------------------------------- *)

Section MdGetSizeFacts.
Import MD.

Variable ctx_t : Type.

(** X15.  [md_get_size] always answers with a value from 0 to 255.  On a
    descriptor the answer is the [size] field reduced modulo 256, so it
    is the field itself exactly when the field is in that range. *)
Theorem md_get_size_range (md_info : option (md_info_t ctx_t)) :
  0 <= md_get_size md_info <= 255 /\
  forall d, md_info = Some d ->
            (md_get_size md_info = size d <-> 0 <= size d <= 255) /\
            (256 | size d - md_get_size md_info).
Proof.
  split.
  - destruct md_info as [d |]; cbn [md_get_size]; [| lia].
    change (2 ^ 8) with 256.
    pose proof (Z.mod_pos_bound (size d) 256 ltac:(lia)). lia.
  - intros d ->. cbn [md_get_size]. change (2 ^ 8) with 256.
    pose proof (Z.mod_pos_bound (size d) 256 ltac:(lia)) as Hb.
    split.
    + split; [intros H; lia | intros H; apply Z.mod_small; lia].
    + exists (size d / 256).
      pose proof (Z.div_mod (size d) 256 ltac:(lia)). lia.
Qed.

(** X16.  An answer of 0 does not tell a missing descriptor from a
    descriptor whose size field is a multiple of 256: [md_get_size]
    returns 0 exactly in these two cases. *)
Theorem md_get_size_zero (md_info : option (md_info_t ctx_t)) :
  md_get_size md_info = 0 <->
  md_info = None \/ exists d, md_info = Some d /\ (256 | size d).
Proof.
  destruct md_info as [d |]; cbn [md_get_size].
  - change (2 ^ 8) with 256. rewrite Z.mod_divide by lia. split.
    + intros H. right. exists d. split; [reflexivity | exact H].
    + intros [H | [d' [H Hd]]]; [discriminate | congruence].
  - split; [intros _; left; reflexivity | reflexivity].
Qed.

End MdGetSizeFacts.
